(** * Shallow embedding of pkg/cmd/taskrun/log_reader.go

    The step resolver (filterSteps, getSteps, getInitSteps), the
    multiplexing loop of readStepsLogs, the non-follow precondition checks
    of readAvailableLogs, and the pod-name waiter
    waitUntilPodNameAvailable with hasTaskRunFailed. *)

From Stdlib Require Import String List ZArith Lia.
From stdpp Require Import base gmap strings list sorting.

Local Infix "+++" := String.append (at level 60, right associativity).
Local Open Scope string_scope.
Local Open Scope list_scope.

(* ------------------------------------------------------------------ *)
(** ** Kubernetes data used by the log reader *)

(** corev1.ContainerStateWaiting / Running / Terminated, reduced to the
    fields the log reader can observe. *)
Record ContainerStateWaiting := { w_reason : string; w_message : string }.
Record ContainerStateRunning := { r_startedAt : Z }.
Record ContainerStateTerminated := { t_exitCode : Z; t_reason : string }.

(** corev1.ContainerState: three optional pointers. *)
Record ContainerState := {
  Waiting : option ContainerStateWaiting;
  Running : option ContainerStateRunning;
  Terminated : option ContainerStateTerminated
}.

(** The Go zero value of corev1.ContainerState (all pointers nil). *)
Definition zeroContainerState : ContainerState :=
  {| Waiting := None; Running := None; Terminated := None |}.

(** corev1.Container (only its name is read) and corev1.ContainerStatus. *)
Record Container := { c_name : string }.
Record ContainerStatus := { cs_name : string; cs_state : ContainerState }.

(** corev1.Pod: Spec.InitContainers, Spec.Containers,
    Status.InitContainerStatuses, Status.ContainerStatuses. *)
Record Pod := {
  spec_initContainers : list Container;
  spec_containers : list Container;
  status_initContainerStatuses : list ContainerStatus;
  status_containerStatuses : list ContainerStatus
}.

(** type step struct { name, container string; state corev1.ContainerState } *)
Record step := { name : string; container : string; state : ContainerState }.

(** func (s *step) hasStarted() bool { return s.state.Waiting == nil } *)
Definition hasStarted (s : step) : bool :=
  match Waiting (state s) with None => true | Some _ => false end.

(** strings.TrimPrefix *)
Definition TrimPrefix (s p : string) : string :=
  if String.prefix p s
  then String.substring (String.length p) (String.length s - String.length p) s
  else s.

(* ------------------------------------------------------------------ *)
(** ** Step resolver *)

(** The map status := map[string]corev1.ContainerState{} filled by
    `for _, cs := range statuses { status[cs.Name] = cs.State }`. *)
Definition statusMap (sts : list ContainerStatus) : gmap string ContainerState :=
  fold_left (fun m cs => <[cs_name cs := cs_state cs]> m) sts ∅.

(** Go map read `status[name]`: the zero value when the key is absent. *)
Definition lookupState (m : gmap string ContainerState) (k : string) : ContainerState :=
  default zeroContainerState (m !! k).

(** One step per container, in declaration order. *)
Definition mkStep (m : gmap string ContainerState) (c : Container) : step :=
  {| name := TrimPrefix (c_name c) "step-";
     container := c_name c;
     state := lookupState m (c_name c) |}.

(** func getInitSteps(pod *corev1.Pod) []*step *)
Definition getInitSteps (pod : Pod) : list step :=
  let status := statusMap (status_initContainerStatuses pod) in
  map (mkStep status) (spec_initContainers pod).

(** func getSteps(pod *corev1.Pod) []*step *)
Definition getSteps (pod : Pod) : list step :=
  let status := statusMap (status_containerStatuses pod) in
  map (mkStep status) (spec_containers pod).

(** The map stepsToAdd := map[string]bool{} with every given name set to
    true; reading an absent key yields false. *)
Definition stepsToAddMap (stepsGiven : list string) : gmap string bool :=
  fold_left (fun m s => <[s := true]> m) stepsGiven ∅.

Definition stepsToAddLookup (m : gmap string bool) (k : string) : bool :=
  default false (m !! k).

(** func filterSteps(pod *corev1.Pod, allSteps bool, stepsGiven []string) []*step *)
Definition filterSteps (pod : Pod) (allSteps : bool) (stepsGiven : list string) : list step :=
  let stepsInPod := getSteps pod in
  let steps := if allSteps then getInitSteps pod else [] in
  match stepsGiven with
  | [] => steps ++ stepsInPod
  | _ :: _ =>
      let stepsToAdd := stepsToAddMap stepsGiven in
      steps ++ filter (fun sp => stepsToAddLookup stepsToAdd (name sp) = true) stepsInPod
  end.


(* ------------------------------------------------------------------ *)
(** ** The multiplexing loop of readStepsLogs *)

(** log.Log{Task, Step, Log} *)
Record Log := { Task : string; Step : string; LogText : string }.

(** What the select of the inner loop receives from the two sources of one
    step, in the order it receives it: a line or the close of podC, an
    error or the close of perrC. *)
Inductive recv :=
  | RecvLog (l : string)
  | RecvLogClosed
  | RecvErr (e : string)
  | RecvErrClosed.

(** The external collaborators for one step: the result of
    container.LogReader(follow).Read() (Some msg = err != nil), what the two
    channels deliver, and the result of container.Status(). *)
Record stepEnv := {
  env_readErr : option string;
  env_recv : list recv;
  env_status : option string
}.

(** Observable effects of the background goroutine, in program order:
    a call to LogReader(..).Read() for a container, a send on logC, a send
    on errC, and the deferred closes (close(errC) runs first: defers are
    LIFO). *)
Inductive eff :=
  | EOpen (c : string)
  | ELog (l : Log)
  | EErr (e : string)
  | ECloseErr
  | ECloseLog.

(** The inner `for podC != nil || perrC != nil { select ... }` loop.
    The boolean flags say whether podC / perrC are still non-nil; a value
    of a channel already set to nil is never received by the select and is
    passed over.  The boolean result says whether the loop exited (both
    channels nil) or ran out of input, i.e. blocks forever in the select. *)
Fixpoint drain (task sname : string) (podOpen perrOpen : bool) (rs : list recv)
  : list eff * bool :=
  if negb podOpen && negb perrOpen then ([], true) else
  match rs with
  | [] => ([], false)
  | RecvLog l :: rs' =>
      if podOpen then
        let '(o, d) := drain task sname podOpen perrOpen rs' in
        (ELog {| Task := task; Step := sname; LogText := l |} :: o, d)
      else drain task sname podOpen perrOpen rs'
  | RecvLogClosed :: rs' =>
      if podOpen then
        let '(o, d) := drain task sname false perrOpen rs' in
        (ELog {| Task := task; Step := sname; LogText := "EOFLOG" |} :: o, d)
      else drain task sname podOpen perrOpen rs'
  | RecvErr e :: rs' =>
      if perrOpen then
        let '(o, d) := drain task sname podOpen perrOpen rs' in
        (EErr ("failed to get logs for " +++ sname +++ ": " +++ e) :: o, d)
      else drain task sname podOpen perrOpen rs'
  | RecvErrClosed :: rs' =>
      if perrOpen then drain task sname podOpen false rs'
      else drain task sname podOpen perrOpen rs'
  end.

(** How the `for _, step := range steps` loop ended: ran out of steps,
    returned after a failed container.Status(), or is blocked in a select. *)
Inductive outcome := Finished | Aborted | Blocked.

(** The body of the goroutine without its deferred closes. *)
Fixpoint stepsLoop (task : string) (follow : bool) (env : step -> stepEnv)
    (steps : list step) : list eff * outcome :=
  match steps with
  | [] => ([], Finished)
  | s :: rest =>
      if negb follow && negb (hasStarted s) then stepsLoop task follow env rest
      else
        let e := env s in
        match env_readErr e with
        | Some err =>
            let '(o, oc) := stepsLoop task follow env rest in
            (EOpen (container s)
               :: EErr ("error in getting logs for step " +++ name s +++ ": " +++ err)
               :: o, oc)
        | None =>
            let '(o, d) := drain task (name s) true true (env_recv e) in
            if d then
              match env_status e with
              | Some serr => (EOpen (container s) :: o ++ [EErr serr], Aborted)
              | None =>
                  let '(o', oc) := stepsLoop task follow env rest in
                  (EOpen (container s) :: o ++ o', oc)
              end
            else (EOpen (container s) :: o, Blocked)
        end
  end.

(** func (lr *LogReader) readStepsLogs(steps, pod, follow): everything the
    goroutine does, including `defer close(logC); defer close(errC)` on
    every return path. *)
Definition readStepsLogs (task : string) (follow : bool) (env : step -> stepEnv)
    (steps : list step) : list eff :=
  let '(o, oc) := stepsLoop task follow env steps in
  match oc with
  | Blocked => o
  | Finished | Aborted => o ++ [ECloseErr; ECloseLog]
  end.

(* ------------------------------------------------------------------ *)
(** ** Task runs, hasTaskRunFailed and readAvailableLogs *)

(** corev1.ConditionStatus *)
Inductive ConditionStatus := ConditionTrue | ConditionFalse | ConditionUnknown.

(** The fields of a knative condition the log reader reads. *)
Record Condition := { cond_status : ConditionStatus; cond_message : string }.

(** v1alpha1.TaskRun as the log reader sees it: its name, the result of
    tr.HasStarted() (a method of the pipeline API, not of this package),
    Status.Conditions and Status.PodName. *)
Record TaskRun := {
  tr_name : string;
  tr_hasStarted : bool;
  tr_conditions : list Condition;
  tr_podName : string
}.

Definition isConditionFalse (s : ConditionStatus) : bool :=
  match s with ConditionFalse => true | _ => false end.

(** func hasTaskRunFailed(trConditions, taskName string) error;
    None stands for a nil error. *)
Definition hasTaskRunFailed (trConditions : list Condition) (taskName : string)
  : option string :=
  match trConditions with
  | c :: _ =>
      if isConditionFalse (cond_status c)
      then Some ("task " +++ taskName +++ " has failed: " +++ cond_message c)
      else None
  | [] => None
  end.

(** *** strings.TrimSpace and the UTF-8 decoding it relies on

    A Go string is a sequence of bytes; [byteZ] reads one of them. *)
Definition byteZ (c : Ascii.ascii) : Z := Z.of_nat (Ascii.nat_of_ascii c).

(** Constants of unicode/utf8. *)
Definition RuneError : Z := 65533.
Definition RuneSelf : Z := 128.
Definition UTFMax : Z := 4.
Definition maskx : Z := 63.
Definition mask2 : Z := 31.
Definition mask3 : Z := 15.
Definition mask4 : Z := 7.
Definition locb : Z := 128.
Definition hicb : Z := 191.

(** utf8's tables [first] and [acceptRanges]: [None] for a byte marked
    [as] (ASCII, 0x00-0x7F) or [xx] (never the first byte of a sequence),
    otherwise the sequence size and the accepted range of its second byte. *)
Definition first (s0 : Z) : option (nat * (Z * Z)) :=
  if (s0 <? 194)%Z then None
  else if (s0 <? 224)%Z then Some (2%nat, (128, 191)%Z)
  else if (s0 =? 224)%Z then Some (3%nat, (160, 191)%Z)
  else if (s0 =? 237)%Z then Some (3%nat, (128, 159)%Z)
  else if (s0 <? 240)%Z then Some (3%nat, (128, 191)%Z)
  else if (s0 =? 240)%Z then Some (4%nat, (144, 191)%Z)
  else if (s0 <? 244)%Z then Some (4%nat, (128, 191)%Z)
  else if (s0 =? 244)%Z then Some (4%nat, (128, 143)%Z)
  else None.

(** utf8.DecodeRuneInString(s): the first rune and its width. *)
Definition DecodeRuneInString (s : list Ascii.ascii) : Z * nat :=
  match s with
  | [] => (RuneError, 0%nat)
  | c0 :: rest =>
      let s0 := byteZ c0 in
      match first s0 with
      | None => (if (s0 <? RuneSelf)%Z then s0 else RuneError, 1%nat)
      | Some (sz, (lo, hi)) =>
          if Nat.ltb (length s) sz then (RuneError, 1%nat) else
          match rest with
          | [] => (RuneError, 1%nat)
          | c1 :: rest1 =>
              let s1 := byteZ c1 in
              if ((s1 <? lo) || (hi <? s1))%Z then (RuneError, 1%nat)
              else if Nat.leb sz 2 then
                (Z.lor (Z.shiftl (Z.land s0 mask2) 6) (Z.land s1 maskx), 2%nat)
              else
                match rest1 with
                | [] => (RuneError, 1%nat)
                | c2 :: rest2 =>
                    let s2 := byteZ c2 in
                    if ((s2 <? locb) || (hicb <? s2))%Z then (RuneError, 1%nat)
                    else if Nat.leb sz 3 then
                      (Z.lor (Z.lor (Z.shiftl (Z.land s0 mask3) 12)
                                    (Z.shiftl (Z.land s1 maskx) 6))
                             (Z.land s2 maskx), 3%nat)
                    else
                      match rest2 with
                      | [] => (RuneError, 1%nat)
                      | c3 :: _ =>
                          let s3 := byteZ c3 in
                          if ((s3 <? locb) || (hicb <? s3))%Z then (RuneError, 1%nat)
                          else
                            (Z.lor (Z.lor (Z.lor (Z.shiftl (Z.land s0 mask4) 18)
                                                 (Z.shiftl (Z.land s1 maskx) 12))
                                          (Z.shiftl (Z.land s2 maskx) 6))
                                   (Z.land s3 maskx), 4%nat)
                      end
                end
          end
      end
  end.

(** s[i] *)
Definition byteAt (s : list Ascii.ascii) (i : Z) : Z := byteZ (nth (Z.to_nat i) s Ascii.zero).

(** utf8.RuneStart(b) *)
Definition RuneStart (b : Z) : bool := negb (Z.land b 192 =? 128)%Z.

(** The loop [for start--; start >= lim; start-- { if RuneStart(s[start]) { break } }]
    of DecodeLastRuneInString, entered with [start] already decremented;
    [fuel] bounds the iterations ([start] only decreases). *)
Fixpoint scanBack (s : list Ascii.ascii) (start lim : Z) (fuel : nat) : Z :=
  match fuel with
  | O => start
  | S f =>
      if (start <? lim)%Z then start
      else if RuneStart (byteAt s start) then start
      else scanBack s (start - 1) lim f
  end.

(** utf8.DecodeLastRuneInString(s): the last rune and its width. *)
Definition DecodeLastRuneInString (s : list Ascii.ascii) : Z * nat :=
  let end_ := Z.of_nat (length s) in
  if (end_ =? 0)%Z then (RuneError, 0%nat) else
  let start := (end_ - 1)%Z in
  let r := byteAt s start in
  if (r <? RuneSelf)%Z then (r, 1%nat) else
  let lim := Z.max 0 (end_ - UTFMax) in
  let start := Z.max 0 (scanBack s (start - 1) lim (S (length s))) in
  let '(r, size) := DecodeRuneInString (drop (Z.to_nat start) s) in
  if negb (start + Z.of_nat size =? end_)%Z then (RuneError, 1%nat) else (r, size).

(** unicode.IsSpace(r): the Latin-1 switch, then the ranges of the
    White_Space table above Latin-1 (all of stride 1). *)
Definition White_Space_R16 : list (Z * Z * Z) :=
  [(5760, 5760, 1); (8192, 8202, 1); (8232, 8233, 1); (8239, 8239, 1);
   (8287, 8287, 1); (12288, 12288, 1)]%Z.

Definition is16 (ranges : list (Z * Z * Z)) (r : Z) : bool :=
  existsb (fun '(lo, hi, stride) => ((lo <=? r) && (r <=? hi) && ((r - lo) mod stride =? 0))%Z)
    ranges.

Definition MaxLatin1 : Z := 255.

Definition IsSpace (r : Z) : bool :=
  if ((0 <=? r) && (r <=? MaxLatin1))%Z then
    ((r =? 9) || (r =? 10) || (r =? 11) || (r =? 12) || (r =? 13) || (r =? 32)
     || (r =? 133) || (r =? 160))%Z
  else is16 White_Space_R16 r.

(** indexFunc(s, f, truth): [for i, r := range s { if f(r) == truth { return i } }];
    ranging over a string decodes as DecodeRuneInString does. *)
Fixpoint indexFunc_from (f : Z -> bool) (truth : bool) (s : list Ascii.ascii) (i fuel : nat)
  : Z :=
  match fuel with
  | O => (-1)%Z
  | S fl =>
      if Nat.leb (length s) i then (-1)%Z
      else
        let '(r, size) := DecodeRuneInString (drop i s) in
        if Bool.eqb (f r) truth then Z.of_nat i else indexFunc_from f truth s (i + size) fl
  end.

Definition indexFunc (f : Z -> bool) (truth : bool) (s : list Ascii.ascii) : Z :=
  indexFunc_from f truth s 0 (length s).

(** lastIndexFunc(s, f, truth):
    [for i := len(s); i > 0; { r, size := DecodeLastRuneInString(s[0:i]); i -= size;
       if f(r) == truth { return i } }; return -1]. *)
Fixpoint lastIndexFunc_from (f : Z -> bool) (truth : bool) (s : list Ascii.ascii) (i fuel : nat)
  : Z :=
  match fuel with
  | O => (-1)%Z
  | S fl =>
      if Nat.eqb i 0 then (-1)%Z
      else
        let '(r, size) := DecodeLastRuneInString (take i s) in
        let i := (i - size)%nat in
        if Bool.eqb (f r) truth then Z.of_nat i else lastIndexFunc_from f truth s i fl
  end.

Definition lastIndexFunc (f : Z -> bool) (truth : bool) (s : list Ascii.ascii) : Z :=
  lastIndexFunc_from f truth s (length s) (length s).

(** strings.TrimLeftFunc *)
Definition TrimLeftFunc (s : list Ascii.ascii) (f : Z -> bool) : list Ascii.ascii :=
  let i := indexFunc f false s in
  if (i =? -1)%Z then [] else drop (Z.to_nat i) s.

(** strings.TrimRightFunc *)
Definition TrimRightFunc (s : list Ascii.ascii) (f : Z -> bool) : list Ascii.ascii :=
  let i := lastIndexFunc f false s in
  let i := if ((0 <=? i) && (RuneSelf <=? byteAt s i))%Z
           then (i + Z.of_nat (snd (DecodeRuneInString (drop (Z.to_nat i) s))))%Z
           else (i + 1)%Z in
  take (Z.to_nat i) s.

(** strings.TrimFunc *)
Definition TrimFunc (s : list Ascii.ascii) (f : Z -> bool) : list Ascii.ascii :=
  TrimRightFunc (TrimLeftFunc s f) f.

(** strings.TrimSpace(s) = TrimFunc(s, unicode.IsSpace).  (The ASCII fast
    path that newer versions put in front strips ASCII spaces byte by byte
    and hands the rest to TrimFunc: it returns the same string.) *)
Definition TrimSpace (s : string) : string :=
  string_of_list_ascii (TrimFunc (list_ascii_of_string s) IsSpace).

(** The result of a Read-like function: an immediate error, or the two
    channels, given here by everything the background goroutine does. *)
Inductive readResult :=
  | ReadErr (e : string)
  | ReadChans (trace : list eff).

(** The fields of LogReader used by readAvailableLogs.  [lr_stream] says
    whether lr.Stream is non-nil. *)
Record LogReader := {
  lr_Task : string;
  lr_Follow : bool;
  lr_AllSteps : bool;
  lr_Stream : bool;
  lr_Steps : list string
}.

(** func (lr *LogReader) readAvailableLogs(tr) (<-chan log.Log, <-chan error, error).
    [getPod] is pods.New(podName, ..).Get(); [env] the per-step log
    transport.  The first component lists what is written to
    lr.Stream.Err. *)
Definition readAvailableLogs (lr : LogReader) (getPod : string -> Pod + string)
    (env : step -> stepEnv) (tr : TaskRun) : list string * readResult :=
  if negb (tr_hasStarted tr) then
    ([], ReadErr ("task " +++ lr_Task lr +++ " has not started yet"))
  else
    match hasTaskRunFailed (tr_conditions tr) (lr_Task lr) with
    | Some err => (if lr_Stream lr then [err +++ String (Ascii.ascii_of_nat 10) ""] else [], ReadErr err)
    | None =>
        if String.eqb (tr_podName tr) "" then
          ([], ReadErr ("pod for taskrun " +++ tr_name tr +++ " not available yet"))
        else
          match getPod (tr_podName tr) with
          | inr err =>
              ([], ReadErr ("task " +++ lr_Task lr +++ " failed: " +++ TrimSpace err
                            +++ ". Run tkn tr desc " +++ tr_name tr +++ " for more details."))
          | inl pod =>
              let steps := filterSteps pod (lr_AllSteps lr) (lr_Steps lr) in
              ([], ReadChans (readStepsLogs (lr_Task lr) (lr_Follow lr) env steps))
          end
    end.

(* ------------------------------------------------------------------ *)
(** ** waitUntilPodNameAvailable *)

(** What one round of `select { case event := <-watchRun.ResultChan(): ...
    case <-time.After(timeout * time.Second): ... }` takes. *)
Inductive watchSel :=
  | SelEvent (r : TaskRun)
  | SelTimeout.

(** Result of the waiter: a run, an error, or still waiting. *)
Inductive waitResult :=
  | WaitRun (r : TaskRun)
  | WaitErr (e : string)
  | WaitPending.

(** The `for { select ... }` loop.  [run] is the run fetched before the
    loop: the `run := event.Object.( *v1alpha1.TaskRun)` of the event case
    declares a new variable local to that case, so the timeout case reads
    the run of the initial Get. *)
Fixpoint waitLoop (task : string) (run : TaskRun) (sels : list watchSel) : waitResult :=
  match sels with
  | [] => WaitPending
  | SelEvent r :: sels' =>
      if negb (String.eqb (tr_podName r) "") then WaitRun r
      else waitLoop task run sels'
  | SelTimeout :: _ =>
      match hasTaskRunFailed (tr_conditions run) task with
      | Some err => WaitErr err
      | None =>
          WaitErr ("task " +++ task
                   +++ " create has not started yet or pod for task not yet available")
      end
  end.

(** func (lr *LogReader) waitUntilPodNameAvailable(timeout): [get] is the
    initial TaskRuns(ns).Get, [watchErr] the error of TaskRuns(ns).Watch. *)
Definition waitUntilPodNameAvailable (task : string) (get : TaskRun + string)
    (watchErr : option string) (sels : list watchSel) : waitResult :=
  match get with
  | inr err => WaitErr err
  | inl run =>
      if negb (String.eqb (tr_podName run) "") then WaitRun run
      else
        match watchErr with
        | Some err => WaitErr err
        | None => waitLoop task run sels
        end
  end.

(** Go's int64 arithmetic: a time.Duration product wraps modulo 2^64. *)
Definition wrapInt64 (z : Z) : Z := ((z + 2 ^ 63) mod 2 ^ 64 - 2 ^ 63)%Z.

(** time.Second, in nanoseconds. *)
Definition Second : Z := 1000000000.

(** Timing of the select: time.After(timeout * time.Second) is created anew
    at each round, so it fires [timeout * time.Second] ns (an int64
    product) after the round starts, at once when that duration is not
    positive.  An event arriving [gap] ns after the round starts wins when
    it comes first; the timer wins when it comes first; on a tie either
    may be chosen ([tie]). *)
Definition selectRound (timeout gap : Z) (tie : bool) (r : TaskRun) : watchSel :=
  let fireAt := Z.max 0 (wrapInt64 (timeout * Second)) in
  if (gap <? fireAt)%Z then SelEvent r
  else if (fireAt <? gap)%Z then SelTimeout
  else if tie then SelEvent r else SelTimeout.

(** The first [n] rounds for an event source where event [i] arrives
    [fst (arrivals i)] ns after round [i] starts. *)
Definition timedRounds (timeout : Z) (arrivals : nat -> Z * TaskRun) (ties : nat -> bool)
    (n : nat) : list watchSel :=
  map (fun i => selectRound timeout (fst (arrivals i)) (ties i) (snd (arrivals i))) (seq 0 n).

(** Time spent in the first [n] rounds when each is ended by its event. *)
Fixpoint elapsed (arrivals : nat -> Z * TaskRun) (n : nat) : Z :=
  match n with
  | O => 0%Z
  | S k => (elapsed arrivals k + fst (arrivals k))%Z
  end.

(* ------------------------------------------------------------------ *)
(** ** formTaskName *)

(** fmt's %d for an int: optional minus sign, then decimal digits. *)
Fixpoint uintDigits (u : Decimal.uint) : string :=
  match u with
  | Decimal.Nil => ""
  | Decimal.D0 u' => "0" +++ uintDigits u'
  | Decimal.D1 u' => "1" +++ uintDigits u'
  | Decimal.D2 u' => "2" +++ uintDigits u'
  | Decimal.D3 u' => "3" +++ uintDigits u'
  | Decimal.D4 u' => "4" +++ uintDigits u'
  | Decimal.D5 u' => "5" +++ uintDigits u'
  | Decimal.D6 u' => "6" +++ uintDigits u'
  | Decimal.D7 u' => "7" +++ uintDigits u'
  | Decimal.D8 u' => "8" +++ uintDigits u'
  | Decimal.D9 u' => "9" +++ uintDigits u'
  end.

Definition formatInt (z : Z) : string :=
  match Z.to_int z with
  | Decimal.Pos u => uintDigits u
  | Decimal.Neg u => "-" +++ uintDigits u
  end.

(** tr.Spec.TaskRef (a pointer: None is nil), with its Name. *)
Record TaskRef := { ref_name : string }.

(** The parts of the task run formTaskName reads: tr.Labels and
    tr.Spec.TaskRef. *)
Record TaskRunMeta := {
  trm_labels : gmap string string;
  trm_taskRef : option TaskRef
}.

(** func (lr *LogReader) formTaskName(tr): the new value of lr.Task, given
    its old value and lr.Number. *)
Definition formTaskName (task : string) (number : Z) (tr : TaskRunMeta) : string :=
  if negb (String.eqb task "") then task
  else match trm_labels tr !! "tekton.dev/pipelineTask" with
       | Some nm => nm
       | None =>
           match trm_taskRef tr with
           | Some r => ref_name r
           | None => "Task " +++ formatInt number
           end
       end.

(* ------------------------------------------------------------------ *)
(** ** readLiveLogs *)

(** func (lr *LogReader) readLiveLogs(): [get], [watchErr] and [sels] drive
    waitUntilPodNameAvailable(10) (the timeout only decides which round
    ends by SelTimeout), [podWait] is pods.New(podName, ..).Wait().  None
    means the call is still waiting for the pod name. *)
Definition readLiveLogs (lr : LogReader) (get : TaskRun + string) (watchErr : option string)
    (sels : list watchSel) (podWait : string -> Pod + string) (env : step -> stepEnv)
  : option readResult :=
  match waitUntilPodNameAvailable (lr_Task lr) get watchErr sels with
  | WaitPending => None
  | WaitErr err => Some (ReadErr err)
  | WaitRun tr =>
      match podWait (tr_podName tr) with
      | inr err =>
          Some (ReadErr ("task " +++ lr_Task lr +++ " failed: " +++ TrimSpace err
                         +++ ". Run tkn tr desc " +++ tr_name tr +++ " for more details."))
      | inl pod =>
          let steps := filterSteps pod (lr_AllSteps lr) (lr_Steps lr) in
          Some (ReadChans (readStepsLogs (lr_Task lr) (lr_Follow lr) env steps))
      end
  end.

(* ------------------------------------------------------------------ *)
(** ** sortResourcesByTypeAndName (pkg/cmd/pipeline/describe.go) *)

(** v1alpha1.PipelineDeclaredResource: Name and Type (a string type). *)
Record PipelineDeclaredResource := { pr_name : string; pr_type : string }.

(** Go's `<` on strings: byte-wise lexicographic order. *)
Definition goLess (a b : string) : bool := String.ltb a b.

(** The less function given to sort.Slice, with a = pres[i], b = pres[j]:
    `if pres[j].Type < pres[i].Type { return false };
     if pres[j].Type > pres[i].Type { return true };
     return pres[j].Name > pres[i].Name`. *)
Definition lessResource (a b : PipelineDeclaredResource) : bool :=
  if goLess (pr_type b) (pr_type a) then false
  else if goLess (pr_type a) (pr_type b) then true
  else goLess (pr_name a) (pr_name b).

(** sort.Slice's contract (its algorithm is in the Go library, and it is
    not stable): the result is a permutation of the input in which no
    element is less than one before it. *)
Definition sortSliceResult {A} (less : A -> A -> bool) (input output : list A) : Prop :=
  Permutation input output /\ StronglySorted (fun a b => less b a = false) output.

(** sortResourcesByTypeAndName(pres): any result sort.Slice may give. *)
Definition sortResourcesByTypeAndName (pres out : list PipelineDeclaredResource) : Prop :=
  sortSliceResult lessResource pres out.

Definition resourceKey (r : PipelineDeclaredResource) : string * string :=
  (pr_type r, pr_name r).

(* ------------------------------------------------------------------ *)
(** ** Observers used to state properties *)

(** A pod with one init step and the steps build and test; build has
    terminated, test is still waiting. *)
Definition examplePod : Pod :=
  {| spec_initContainers := [ {| c_name := "step-init-git" |} ];
     spec_containers := [ {| c_name := "step-build" |}; {| c_name := "step-test" |} ];
     status_initContainerStatuses := [];
     status_containerStatuses :=
       [ {| cs_name := "step-build";
            cs_state := {| Waiting := None; Running := None;
                           Terminated := Some {| t_exitCode := 0; t_reason := "Completed" |} |} |};
         {| cs_name := "step-test";
            cs_state := {| Waiting := Some {| w_reason := "PodInitializing"; w_message := "" |};
                           Running := None; Terminated := None |} |} ] |}.

(** The records sent on logC, in order. *)
Definition logsOf (t : list eff) : list Log :=
  flat_map (fun e => match e with ELog l => [l] | _ => [] end) t.

(** The lines podC delivers before it is closed. *)
Fixpoint linesBefore (rs : list recv) : list string :=
  match rs with
  | [] => []
  | RecvLog l :: rs' => l :: linesBefore rs'
  | RecvLogClosed :: _ => []
  | _ :: rs' => linesBefore rs'
  end.

(** A step whose only log line is the text EOFLOG. *)
Definition eoflogStep : step :=
  {| name := "build"; container := "step-build"; state := zeroContainerState |}.

Definition eoflogEnv (s : step) : stepEnv :=
  {| env_readErr := None;
     env_recv := [RecvLog "EOFLOG"; RecvLogClosed; RecvErrClosed];
     env_status := None |}.

(** The run returned by the initial Get: not failed (yet), no pod. *)
Definition pendingRun : TaskRun :=
  {| tr_name := "tr"; tr_hasStarted := false; tr_conditions := []; tr_podName := "" |}.

(** The same run as a watch event reports it a moment later: failed
    before a pod was created. *)
Definition failedRun : TaskRun :=
  {| tr_name := "tr"; tr_hasStarted := true;
     tr_conditions := [ {| cond_status := ConditionFalse; cond_message := "boom" |} ];
     tr_podName := "" |}.

(** Steps build and test: build prints a line, reports a stream error and
    then fails; test would print a line. *)
Definition buildStep : step :=
  {| name := "build"; container := "step-build"; state := zeroContainerState |}.
Definition testStep : step :=
  {| name := "test"; container := "step-test"; state := zeroContainerState |}.

Definition abortEnv (s : step) : stepEnv :=
  if String.eqb (name s) "build" then
    {| env_readErr := None;
       env_recv := [RecvLog "ok"; RecvErr "x"; RecvLogClosed; RecvErrClosed];
       env_status := Some "exit status 1" |}
  else
    {| env_readErr := None;
       env_recv := [RecvLog "tested"; RecvLogClosed; RecvErrClosed];
       env_status := None |}.

(** A waiting step. *)
Definition waitingStep : step :=
  {| name := "test"; container := "step-test";
     state := {| Waiting := Some {| w_reason := "PodInitializing"; w_message := "" |};
                 Running := None; Terminated := None |} |}.

(** A pod whose second container has no status entry. *)
Definition podMissingStatus : Pod :=
  {| spec_initContainers := [ {| c_name := "step-init" |} ];
     spec_containers := [ {| c_name := "step-build" |}; {| c_name := "step-extra" |} ];
     status_initContainerStatuses := [];
     status_containerStatuses :=
       [ {| cs_name := "step-build"; cs_state := zeroContainerState |} ] |}.

(** Watch events arriving one second into each round. *)
Definition everySecond (i : nat) : Z * TaskRun := (1000000000%Z, pendingRun).

(** The messages sent on errC, in order. *)
Definition errorsOf (t : list eff) : list string :=
  flat_map (fun e => match e with EErr m => [m] | _ => [] end) t.

(** The errors perrC delivers before it is closed. *)
Fixpoint errsBefore (rs : list recv) : list string :=
  match rs with
  | [] => []
  | RecvErr e :: rs' => e :: errsBefore rs'
  | RecvErrClosed :: _ => []
  | _ :: rs' => errsBefore rs'
  end.

(** The containers whose log reader is opened, in order. *)
Definition opensOf (t : list eff) : list string :=
  flat_map (fun e => match e with EOpen c => [c] | _ => [] end) t.

Definition isClose (e : eff) : bool :=
  match e with ECloseErr | ECloseLog => true | _ => false end.

(** A run that already has its pod. *)
Definition scheduledRun : TaskRun :=
  {| tr_name := "tr"; tr_hasStarted := true; tr_conditions := []; tr_podName := "tr-pod" |}.

(** A run that has its pod and whose first condition is failed. *)
Definition failedScheduledRun : TaskRun :=
  {| tr_name := "tr"; tr_hasStarted := true;
     tr_conditions := [ {| cond_status := ConditionFalse; cond_message := "boom" |} ];
     tr_podName := "tr-pod" |}.

(** The log reader of build cannot be opened. *)
Definition openFailEnv (s : step) : stepEnv :=
  if String.eqb (name s) "build" then
    {| env_readErr := Some "container not found"; env_recv := []; env_status := None |}
  else abortEnv s.

Definition plainReader : LogReader :=
  {| lr_Task := "t"; lr_Follow := false; lr_AllSteps := false; lr_Stream := true; lr_Steps := [] |}.

Definition gitResource : PipelineDeclaredResource := {| pr_name := "source"; pr_type := "git" |}.
Definition imageResource : PipelineDeclaredResource := {| pr_name := "app"; pr_type := "image" |}.

(* ================================================================== *)
(** * Properties *)

(* ------------------------------------------------------------------ *)
(** ** Step resolver *)

Example trim_step_build : TrimPrefix "step-build" "step-" = "build".
Proof. reflexivity. Qed.

Example trim_other : TrimPrefix "sidecar" "step-" = "sidecar".
Proof. reflexivity. Qed.

Example filter_example_all :
  map name (filterSteps examplePod true []) = ["init-git"; "build"; "test"].
Proof. reflexivity. Qed.

Example filter_example_wanted :
  map name (filterSteps examplePod false ["test"; "nope"; "build"]) = ["build"; "test"].
Proof. reflexivity. Qed.

Lemma statusMap_fold_lookup (sts : list ContainerStatus) (m : gmap string ContainerState) k :
  Forall (fun cs => cs_name cs <> k) sts ->
  fold_left (fun m cs => <[cs_name cs := cs_state cs]> m) sts m !! k = m !! k.
Proof.
  revert m. induction sts as [|cs sts IH]; intros m Hall; simpl; [done|].
  apply Forall_cons in Hall as [Hne Hrest].
  rewrite IH by done. by rewrite lookup_insert_ne.
Qed.

Lemma statusMap_absent (sts : list ContainerStatus) k :
  Forall (fun cs => cs_name cs <> k) sts -> lookupState (statusMap sts) k = zeroContainerState.
Proof.
  intros H. unfold lookupState, statusMap. rewrite statusMap_fold_lookup by done.
  by rewrite lookup_empty.
Qed.

Lemma stepsToAdd_fold_lookup (w : list string) (m : gmap string bool) k :
  fold_left (fun m s => <[s := true]> m) w m !! k = if decide (k ∈ w) then Some true else m !! k.
Proof.
  revert m. induction w as [|s w IH]; intros m; cbn [fold_left].
  - destruct (decide (k ∈ [])) as [Hin|]; [by apply elem_of_nil in Hin | done].
  - rewrite IH, lookup_insert.
    destruct (decide (k ∈ w)), (decide (k ∈ s :: w)), (decide (s = k)); subst;
      try done; set_solver.
Qed.

Lemma stepsToAddLookup_spec (w : list string) k :
  stepsToAddLookup (stepsToAddMap w) k = true <-> k ∈ w.
Proof.
  unfold stepsToAddLookup, stepsToAddMap. rewrite stepsToAdd_fold_lookup.
  case_decide; simpl; [tauto|]. rewrite lookup_empty. simpl. split; [discriminate|tauto].
Qed.

Lemma filterSteps_nonempty (pod : Pod) (allSteps : bool) (wanted : list string) :
  wanted <> [] ->
  filterSteps pod allSteps wanted =
    (if allSteps then getInitSteps pod else []) ++ filter (fun sp => name sp ∈ wanted) (getSteps pod).
Proof.
  intros Hne. unfold filterSteps. destruct wanted as [|w0 ws]; [done|].
  f_equal. apply list_filter_iff. intros sp. apply stepsToAddLookup_spec.
Qed.

(** Claim C3: with an empty wanted list, filterSteps returns the steps of
    the pod's containers in declaration order, preceded by the init steps
    exactly when allSteps is true; each step's name is its container's
    name without the prefix "step-". *)
Theorem filterSteps_empty_wanted (pod : Pod) (allSteps : bool) :
  filterSteps pod allSteps [] =
    (if allSteps then getInitSteps pod else []) ++ getSteps pod /\
  map container (getSteps pod) = map c_name (spec_containers pod) /\
  map name (getSteps pod) = map (fun c => TrimPrefix (c_name c) "step-") (spec_containers pod) /\
  map container (getInitSteps pod) = map c_name (spec_initContainers pod) /\
  map name (getInitSteps pod) =
    map (fun c => TrimPrefix (c_name c) "step-") (spec_initContainers pod).
Proof.
  unfold getSteps, getInitSteps. rewrite !map_map.
  repeat split; reflexivity.
Qed.

Lemma filter_ext_in {A} (P Q : A -> Prop) `{!forall x, Decision (P x), !forall x, Decision (Q x)}
    (l : list A) :
  (forall x, In x l -> (P x <-> Q x)) -> filter P l = filter Q l.
Proof.
  induction l as [|a l IH]; intros Hext; [done|].
  assert (Ha : P a <-> Q a) by (apply Hext; by left).
  rewrite !filter_cons, IH by (intros y Hy; apply Hext; by right).
  destruct (decide (P a)), (decide (Q a)); tauto.
Qed.

(** Claim C4: with a non-empty wanted list, after the optional init steps
    filterSteps returns exactly the pod's steps whose names are in wanted,
    in pod order; the result depends only on which names wanted contains
    (not on their order), and names matching no step are dropped without
    any error (filterSteps has no error result). *)
Theorem filterSteps_wanted (pod : Pod) (allSteps : bool) (wanted : list string) :
  wanted <> [] ->
  filterSteps pod allSteps wanted =
    (if allSteps then getInitSteps pod else []) ++ filter (fun sp => name sp ∈ wanted) (getSteps pod) /\
  (forall wanted', (forall x, x ∈ wanted <-> x ∈ wanted') ->
     filterSteps pod allSteps wanted' = filterSteps pod allSteps wanted) /\
  (forall extra, Forall (fun sp => name sp <> extra) (getSteps pod) ->
     filterSteps pod allSteps (wanted ++ [extra]) = filterSteps pod allSteps wanted).
Proof.
  intros Hne. split; [by apply filterSteps_nonempty|]. split.
  - intros wanted' Hiff.
    assert (Hne' : wanted' <> []).
    { intros ->. destruct wanted as [|w ws]; [done|].
      specialize (Hiff w). set_solver. }
    rewrite !filterSteps_nonempty by done. f_equal.
    apply list_filter_iff. intros sp. by rewrite Hiff.
  - intros extra Hall.
    assert (Hne' : wanted ++ [extra] <> []) by (destruct wanted; done).
    rewrite !filterSteps_nonempty by done. f_equal.
    apply filter_ext_in. intros sp Hin.
    rewrite elem_of_app, list_elem_of_singleton.
    rewrite Forall_forall in Hall. specialize (Hall sp (proj2 (list_elem_of_In _ _) Hin)). tauto.
Qed.

(** Claim C5: with allSteps set and a non-empty wanted list, all init steps
    come first, unfiltered, followed by the wanted steps; for a pod with
    init step init-git and steps build, test and wanted = [test] the
    resolved order is init-git, test. *)
Theorem filterSteps_init_unfiltered (pod : Pod) (wanted : list string) :
  wanted <> [] ->
  filterSteps pod true wanted =
    getInitSteps pod ++ filter (fun sp => name sp ∈ wanted) (getSteps pod) /\
  map name (filterSteps examplePod true ["test"]) = ["init-git"; "test"].
Proof.
  intros Hne. split; [by apply (filterSteps_nonempty pod true) | reflexivity].
Qed.

(** Claim C9: a container of the pod spec that has no entry in the status
    list gets the zero container state; its step has started (Waiting is
    nil), so the non-follow loop opens its log reader.  The same holds for
    init containers. *)
Theorem getSteps_missing_status_started (pod : Pod) (c : Container) :
  (In c (spec_containers pod) ->
   Forall (fun cs => cs_name cs <> c_name c) (status_containerStatuses pod) ->
   exists st, In st (getSteps pod) /\ container st = c_name c /\
     state st = zeroContainerState /\ hasStarted st = true /\
     forall task env rest, exists o,
       fst (stepsLoop task false env (st :: rest)) = EOpen (c_name c) :: o) /\
  (In c (spec_initContainers pod) ->
   Forall (fun cs => cs_name cs <> c_name c) (status_initContainerStatuses pod) ->
   exists st, In st (getInitSteps pod) /\ container st = c_name c /\
     state st = zeroContainerState /\ hasStarted st = true /\
     forall task env rest, exists o,
       fst (stepsLoop task false env (st :: rest)) = EOpen (c_name c) :: o).
Proof.
  split; intros Hin Habs;
    [exists (mkStep (statusMap (status_containerStatuses pod)) c)
    |exists (mkStep (statusMap (status_initContainerStatuses pod)) c)];
    (split; [apply in_map; exact Hin|]);
    (assert (Hz : state (mkStep _ c) = zeroContainerState)
       by (simpl; by apply statusMap_absent));
    repeat split; try done; try (unfold hasStarted; by rewrite Hz);
    intros task env rest; cbn [stepsLoop];
    (replace (hasStarted _) with true by (unfold hasStarted; by rewrite Hz)); simpl;
    (destruct (env_readErr _); [| destruct (drain _ _ _ _ _) as [o d];
       destruct d; [destruct (env_status _)|]]);
    (try destruct (stepsLoop _ _ _ rest)); eexists; reflexivity.
Qed.

(* ------------------------------------------------------------------ *)
(** ** The multiplexing loop *)

Lemma stepsLoop_app_finished task follow env (pre post : list step) o :
  stepsLoop task follow env pre = (o, Finished) ->
  stepsLoop task follow env (pre ++ post) =
    (o ++ fst (stepsLoop task follow env post), snd (stepsLoop task follow env post)).
Proof.
  revert o. induction pre as [|s pre IH]; intros o H; simpl in *.
  - injection H as <-. by destruct (stepsLoop task follow env post).
  - destruct (negb follow && negb (hasStarted s)); [by apply IH|].
    destruct (env_readErr (env s)) as [err|].
    + destruct (stepsLoop task follow env pre) as [o1 oc1] eqn:E1.
      injection H as <- ->. rewrite (IH o1 eq_refl). simpl. reflexivity.
    + destruct (drain task (name s) true true (env_recv (env s))) as [od d].
      destruct d; [|discriminate].
      destruct (env_status (env s)); [discriminate|].
      destruct (stepsLoop task follow env pre) as [o1 oc1] eqn:E1.
      injection H as <- ->. rewrite (IH o1 eq_refl). simpl. by rewrite <- app_assoc.
Qed.

Lemma drain_closed_nologs task n eo rs o d :
  drain task n false eo rs = (o, d) -> logsOf o = [].
Proof.
  revert eo o d. induction rs as [|r rs IH]; intros eo o d H; simpl in H.
  - destruct eo; simpl in H; injection H as <- _; reflexivity.
  - destruct eo; simpl in H; [|injection H as <- _; reflexivity].
    destruct r; try (eapply IH; exact H).
    destruct (drain task n false true rs) as [o1 d1] eqn:E.
    injection H as <- _. simpl. eapply IH; exact E.
Qed.

Lemma drain_open_logs task n eo rs o :
  drain task n true eo rs = (o, true) ->
  logsOf o = map (fun l => {| Task := task; Step := n; LogText := l |}) (linesBefore rs)
             ++ [{| Task := task; Step := n; LogText := "EOFLOG" |}].
Proof.
  revert eo o. induction rs as [|r rs IH]; intros eo o H; simpl in H.
  - discriminate.
  - destruct r as [l| |e|]; simpl.
    + destruct (drain task n true eo rs) as [o1 d1] eqn:E.
      injection H as <- ->. simpl. f_equal. by apply (IH eo).
    + destruct (drain task n false eo rs) as [o1 d1] eqn:E.
      injection H as <- ->. simpl. by rewrite (drain_closed_nologs _ _ _ _ _ _ E).
    + destruct eo.
      * destruct (drain task n true true rs) as [o1 d1] eqn:E.
        injection H as <- ->. simpl. by apply (IH true).
      * by apply (IH false).
    + destruct eo; by apply (IH false).
Qed.

Lemma stepsLoop_skip_waiting task env (pre post : list step) s :
  hasStarted s = false ->
  stepsLoop task false env (pre ++ s :: post) = stepsLoop task false env (pre ++ post).
Proof.
  intros Hw. induction pre as [|p pre IH]; simpl.
  - by rewrite Hw.
  - rewrite IH. reflexivity.
Qed.

(** Claim C1: when a step is reached, its log reader opens, both of its
    sources are drained and container.Status() then reports an error, the
    goroutine sends that error once, sends nothing for any later step, and
    closes both channels. *)
Theorem readStepsLogs_status_failure_aborts task follow env (pre post : list step) s
    opre os serr :
  stepsLoop task follow env pre = (opre, Finished) ->
  (follow || hasStarted s)%bool = true ->
  env_readErr (env s) = None ->
  drain task (name s) true true (env_recv (env s)) = (os, true) ->
  env_status (env s) = Some serr ->
  readStepsLogs task follow env (pre ++ s :: post) =
    opre ++ EOpen (container s) :: os ++ [EErr serr; ECloseErr; ECloseLog].
Proof.
  intros Hpre Hrun Hopen Hdrain Hstatus.
  unfold readStepsLogs. rewrite (stepsLoop_app_finished _ _ _ _ _ _ Hpre). simpl.
  replace (negb follow && negb (hasStarted s))%bool with false
    by (destruct follow, (hasStarted s); simpl in *; congruence).
  rewrite Hopen, Hdrain, Hstatus. simpl.
  rewrite <- app_assoc. simpl. rewrite <- app_assoc. reflexivity.
Qed.

(** Claim C8: in non-follow mode a step whose state is waiting is skipped
    entirely: the goroutine behaves as if the step were not in the list (no
    log reader opened, nothing sent for it), whatever comes before it. *)
Theorem readStepsLogs_skips_waiting task env (pre post : list step) s :
  hasStarted s = false ->
  readStepsLogs task false env (pre ++ s :: post) = readStepsLogs task false env (pre ++ post).
Proof.
  intros Hw. unfold readStepsLogs. by rewrite stepsLoop_skip_waiting.
Qed.

(** Claim C2 does not hold as stated: the sentinel is in band, so a step
    whose last log line is the text EOFLOG ends its log records with two
    records whose Log field is EOFLOG, not exactly one. *)
Lemma readStepsLogs_eoflog_line_counterexample :
  let t := readStepsLogs "t" false eoflogEnv [eoflogStep] in
  t = [EOpen "step-build";
       ELog {| Task := "t"; Step := "build"; LogText := "EOFLOG" |};
       ELog {| Task := "t"; Step := "build"; LogText := "EOFLOG" |};
       ECloseErr; ECloseLog] /\
  length (filter (fun l => Step l = "build" /\ LogText l = "EOFLOG") (logsOf t)) = 2.
Proof. split; reflexivity. Qed.

(** Claim C2 (amended): for a step that is reached and whose log reader
    opens, if both of its sources close, the records it sends on logC are
    its log lines in order followed by exactly one appended sentinel (Log
    "EOFLOG", that step's name), and everything of later steps comes after
    them; if the sources do not both close, nothing of a later step is
    ever sent.  The sentinel is in band: a line whose text is EOFLOG gives
    a record equal to it. *)
Theorem readStepsLogs_step_sentinel task follow env (pre post : list step) s opre :
  stepsLoop task follow env pre = (opre, Finished) ->
  (follow || hasStarted s)%bool = true ->
  env_readErr (env s) = None ->
  (forall os, drain task (name s) true true (env_recv (env s)) = (os, true) ->
     logsOf os =
       map (fun l => {| Task := task; Step := name s; LogText := l |})
           (linesBefore (env_recv (env s)))
       ++ [{| Task := task; Step := name s; LogText := "EOFLOG" |}] /\
     readStepsLogs task follow env (pre ++ s :: post) =
       opre ++ EOpen (container s) :: os ++
       match env_status (env s) with
       | Some serr => [EErr serr; ECloseErr; ECloseLog]
       | None => readStepsLogs task follow env post
       end) /\
  (forall os, drain task (name s) true true (env_recv (env s)) = (os, false) ->
     readStepsLogs task follow env (pre ++ s :: post) = opre ++ EOpen (container s) :: os).
Proof.
  intros Hpre Hrun Hopen.
  assert (Hgo : (negb follow && negb (hasStarted s))%bool = false)
    by (destruct follow, (hasStarted s); simpl in *; congruence).
  unfold readStepsLogs. rewrite (stepsLoop_app_finished _ _ _ _ _ _ Hpre). simpl.
  rewrite Hgo, Hopen. split; intros os Hdrain; rewrite Hdrain.
  - split; [by apply (drain_open_logs _ _ true) |].
    destruct (env_status (env s)) as [serr|]; simpl.
    + rewrite <- app_assoc. simpl. rewrite <- app_assoc. reflexivity.
    + destruct (stepsLoop task follow env post) as [o' oc]; simpl.
      destruct oc; rewrite <- ?app_assoc; simpl; rewrite <- ?app_assoc; reflexivity.
  - simpl. by rewrite ?app_nil_r.
Qed.

(* ------------------------------------------------------------------ *)
(** ** readAvailableLogs *)

(** Claim C7: the non-follow path checks, in this order and with no
    streaming, that the run has started, that its first condition is not
    failed (writing the failure to lr.Stream.Err when present, whatever the
    pod name), and that the pod name is not empty. *)
Theorem readAvailableLogs_check_order (lr : LogReader) getPod env (tr : TaskRun) :
  (tr_hasStarted tr = false ->
   readAvailableLogs lr getPod env tr =
     ([], ReadErr ("task " +++ lr_Task lr +++ " has not started yet"))) /\
  (forall c cs, tr_hasStarted tr = true -> tr_conditions tr = c :: cs ->
   cond_status c = ConditionFalse ->
   let err := "task " +++ lr_Task lr +++ " has failed: " +++ cond_message c in
   readAvailableLogs lr getPod env tr =
     (if lr_Stream lr then [err +++ String (Ascii.ascii_of_nat 10) ""] else [], ReadErr err)) /\
  (tr_hasStarted tr = true -> hasTaskRunFailed (tr_conditions tr) (lr_Task lr) = None ->
   tr_podName tr = "" ->
   readAvailableLogs lr getPod env tr =
     ([], ReadErr ("pod for taskrun " +++ tr_name tr +++ " not available yet"))).
Proof.
  unfold readAvailableLogs. repeat split.
  - intros H. by rewrite H.
  - intros c cs Hs Hc Hf. rewrite Hs, Hc. simpl. by rewrite Hf.
  - intros Hs Hf Hp. rewrite Hs, Hf, Hp. reflexivity.
Qed.

(* ------------------------------------------------------------------ *)
(** ** waitUntilPodNameAvailable *)

Lemma waitLoop_all_empty_events task run (l : list watchSel) :
  Forall (fun x => exists r, x = SelEvent r /\ tr_podName r = "") l ->
  waitLoop task run l = WaitPending.
Proof.
  induction l as [|x l IH]; intros Hall; [done|].
  apply Forall_cons in Hall as [[r [-> Hr]] Hrest]. simpl. rewrite Hr. simpl.
  by apply IH.
Qed.

Lemma append_cancel_l (p s1 s2 : string) : p +++ s1 = p +++ s2 -> s1 = s2.
Proof. induction p as [|c p IH]; simpl; [done|]. intros [= H]. by apply IH. Qed.

(** When the run of the initial Get already reports failure and has no pod
    name, the waiter never gives the timeout error. *)
Lemma waitUntilPodNameAvailable_initial_failed task (run : TaskRun) c cs sels :
  tr_podName run = "" -> tr_conditions run = c :: cs -> cond_status c = ConditionFalse ->
  waitUntilPodNameAvailable task (inl run) None sels <>
    WaitErr ("task " +++ task +++ " create has not started yet or pod for task not yet available").
Proof.
  intros Hp Hc Hf. unfold waitUntilPodNameAvailable. rewrite Hp. simpl.
  induction sels as [|x sels IH]; simpl; [discriminate|].
  destruct x as [r|].
  - destruct (negb (String.eqb (tr_podName r) "")); [discriminate | exact IH].
  - rewrite Hc. simpl. rewrite Hf. simpl. intros [= Heq].
    apply append_cancel_l, append_cancel_l in Heq. inversion Heq.
Qed.

(** Claim C6 fails on the code: after a watch event showing the run failed
    with no pod, the timeout case re-checks the run of the initial Get (the
    event's run is a new variable local to the event case) and returns the
    timeout error instead of the failure error. *)
Theorem waitUntilPodNameAvailable_stale_run :
  hasTaskRunFailed (tr_conditions failedRun) "t" = Some "task t has failed: boom" /\
  tr_podName failedRun = "" /\
  waitUntilPodNameAvailable "t" (inl pendingRun) None [SelEvent failedRun; SelTimeout] =
    WaitErr "task t create has not started yet or pod for task not yet available".
Proof. repeat split; reflexivity. Qed.

Lemma selectRound_fire_no_overflow timeout :
  (0 < timeout * 1000000000 < 2 ^ 63)%Z ->
  Z.max 0 (wrapInt64 (timeout * Second)) = (timeout * 1000000000)%Z.
Proof.
  intros H. unfold wrapInt64, Second.
  rewrite Z.mod_small by lia. lia.
Qed.

Lemma timedRounds_events timeout arrivals ties n :
  (timeout * 1000000000 < 2 ^ 63)%Z ->
  (forall i, (0 < fst (arrivals i) < timeout * 1000000000)%Z) ->
  (forall i, tr_podName (snd (arrivals i)) = "") ->
  Forall (fun x => exists r, x = SelEvent r /\ tr_podName r = "")
    (timedRounds timeout arrivals ties n).
Proof.
  intros Hmax Hgap Hpod. unfold timedRounds. apply Forall_forall. intros x Hx.
  apply list_elem_of_In, in_map_iff in Hx as [i [<- _]].
  exists (snd (arrivals i)). split; [|apply Hpod].
  unfold selectRound. specialize (Hgap i).
  rewrite selectRound_fire_no_overflow by lia.
  destruct (Z.ltb_spec (fst (arrivals i)) (timeout * 1000000000)); [done | lia].
Qed.

Lemma elapsed_lower arrivals n :
  (forall i, (1 <= fst (arrivals i))%Z) -> (Z.of_nat n <= elapsed arrivals n)%Z.
Proof.
  intros H. induction n as [|n IH]; simpl; [lia|]. specialize (H n). lia.
Qed.

(** Claim C10: the timer is re-created at each round, so a stream of watch
    events with no pod name, each arriving within the timeout of the round
    it ends, keeps the waiter waiting for ever: after any number of rounds
    it has not taken the timeout case, and after enough rounds the time
    spent exceeds the timeout.  The timeout is one whose duration
    [timeout * time.Second] does not overflow int64 (the only caller,
    readLiveLogs, passes 10). *)
Theorem waitUntilPodNameAvailable_timer_rearmed task (run : TaskRun) timeout arrivals ties :
  (timeout * 1000000000 < 2 ^ 63)%Z ->
  tr_podName run = "" ->
  (forall i, (0 < fst (arrivals i) < timeout * 1000000000)%Z) ->
  (forall i, tr_podName (snd (arrivals i)) = "") ->
  (forall n, waitUntilPodNameAvailable task (inl run) None
               (timedRounds timeout arrivals ties n) = WaitPending) /\
  exists n, (timeout * 1000000000 < elapsed arrivals n)%Z /\
    waitUntilPodNameAvailable task (inl run) None (timedRounds timeout arrivals ties n)
      = WaitPending.
Proof.
  intros Hmax Hrun Hgap Hpod.
  assert (Hall : forall n, waitUntilPodNameAvailable task (inl run) None
                   (timedRounds timeout arrivals ties n) = WaitPending).
  { intros n. unfold waitUntilPodNameAvailable. rewrite Hrun. simpl.
    apply waitLoop_all_empty_events, timedRounds_events; assumption. }
  split; [exact Hall|].
  exists (S (Z.to_nat (timeout * 1000000000))). split; [|apply Hall].
  assert (H1 : forall i, (1 <= fst (arrivals i))%Z) by (intros i; specialize (Hgap i); lia).
  pose proof (elapsed_lower arrivals (S (Z.to_nat (timeout * 1000000000))) H1).
  lia.
Qed.

(* ------------------------------------------------------------------ *)
(** ** The theorems at concrete inputs *)

Lemma filterSteps_wanted_witness :
  ["test"; "nope"] <> [] /\
  filterSteps examplePod false ["test"; "nope"] =
    [] ++ filter (fun sp => name sp ∈ ["test"; "nope"]) (getSteps examplePod).
Proof.
  split; [discriminate|].
  exact (proj1 (filterSteps_wanted examplePod false ["test"; "nope"] ltac:(discriminate))).
Defined.

Lemma filterSteps_init_unfiltered_witness :
  ["test"] <> [] /\
  filterSteps examplePod true ["test"] =
    getInitSteps examplePod ++ filter (fun sp => name sp ∈ ["test"]) (getSteps examplePod).
Proof.
  split; [discriminate|].
  exact (proj1 (filterSteps_init_unfiltered examplePod ["test"] ltac:(discriminate))).
Defined.

Lemma getSteps_missing_status_started_witness :
  In {| c_name := "step-extra" |} (spec_containers podMissingStatus) /\
  Forall (fun cs => cs_name cs <> "step-extra") (status_containerStatuses podMissingStatus) /\
  exists st, In st (getSteps podMissingStatus) /\ container st = "step-extra" /\
     state st = zeroContainerState /\ hasStarted st = true /\
     forall task env rest, exists o,
       fst (stepsLoop task false env (st :: rest)) = EOpen "step-extra" :: o.
Proof.
  assert (Hin : In {| c_name := "step-extra" |} (spec_containers podMissingStatus))
    by (simpl; auto).
  assert (Habs : Forall (fun cs => cs_name cs <> "step-extra")
                   (status_containerStatuses podMissingStatus))
    by (repeat constructor; discriminate).
  split; [exact Hin|]. split; [exact Habs|].
  exact (proj1 (getSteps_missing_status_started podMissingStatus {| c_name := "step-extra" |})
           Hin Habs).
Defined.

Lemma readAvailableLogs_check_order_witness :
  tr_hasStarted pendingRun = false /\
  readAvailableLogs {| lr_Task := "t"; lr_Follow := false; lr_AllSteps := false;
                       lr_Stream := true; lr_Steps := [] |}
                    (fun _ => inl examplePod) abortEnv pendingRun =
    ([], ReadErr "task t has not started yet").
Proof.
  split; [reflexivity|].
  exact (proj1 (readAvailableLogs_check_order
                  {| lr_Task := "t"; lr_Follow := false; lr_AllSteps := false;
                     lr_Stream := true; lr_Steps := [] |}
                  (fun _ => inl examplePod) abortEnv pendingRun) eq_refl).
Defined.

Lemma readStepsLogs_status_failure_aborts_witness :
  drain "t" "build" true true (env_recv (abortEnv buildStep))
    = ([ELog {| Task := "t"; Step := "build"; LogText := "ok" |};
        EErr "failed to get logs for build: x";
        ELog {| Task := "t"; Step := "build"; LogText := "EOFLOG" |}], true) /\
  readStepsLogs "t" false abortEnv ([] ++ buildStep :: [testStep]) =
    [] ++ EOpen "step-build"
       :: [ELog {| Task := "t"; Step := "build"; LogText := "ok" |};
           EErr "failed to get logs for build: x";
           ELog {| Task := "t"; Step := "build"; LogText := "EOFLOG" |}]
       ++ [EErr "exit status 1"; ECloseErr; ECloseLog].
Proof.
  split; [reflexivity|].
  apply (readStepsLogs_status_failure_aborts "t" false abortEnv [] [testStep] buildStep
           [] _ "exit status 1"); reflexivity.
Defined.

Lemma readStepsLogs_skips_waiting_witness :
  hasStarted waitingStep = false /\
  readStepsLogs "t" false abortEnv ([buildStep] ++ waitingStep :: [])
    = readStepsLogs "t" false abortEnv ([buildStep] ++ []).
Proof.
  split; [reflexivity|].
  apply readStepsLogs_skips_waiting; reflexivity.
Defined.

Lemma readStepsLogs_step_sentinel_witness :
  drain "t" "test" true true (env_recv (abortEnv testStep))
    = ([ELog {| Task := "t"; Step := "test"; LogText := "tested" |};
        ELog {| Task := "t"; Step := "test"; LogText := "EOFLOG" |}], true) /\
  logsOf [ELog {| Task := "t"; Step := "test"; LogText := "tested" |};
          ELog {| Task := "t"; Step := "test"; LogText := "EOFLOG" |}] =
    map (fun l => {| Task := "t"; Step := "test"; LogText := l |})
        (linesBefore (env_recv (abortEnv testStep)))
    ++ [{| Task := "t"; Step := "test"; LogText := "EOFLOG" |}].
Proof.
  split; [reflexivity|].
  refine (proj1 (proj1 (readStepsLogs_step_sentinel "t" false abortEnv [] [buildStep]
                          testStep [] eq_refl eq_refl eq_refl) _ eq_refl)).
Defined.

Lemma waitUntilPodNameAvailable_timer_rearmed_witness :
  (10 * 1000000000 < 2 ^ 63)%Z /\ tr_podName pendingRun = "" /\
  waitUntilPodNameAvailable "t" (inl pendingRun) None
    (timedRounds 10 everySecond (fun _ => false) 25) = WaitPending.
Proof.
  split; [reflexivity|]. split; [reflexivity|].
  refine (proj1 (waitUntilPodNameAvailable_timer_rearmed "t" pendingRun 10 everySecond
                   (fun _ => false) _ eq_refl _ _) 25).
  - reflexivity.
  - intros i. simpl. lia.
  - intros i. reflexivity.
Defined.

(* ================================================================== *)
(** * Further properties of the code *)

Example formatInt_examples :
  formatInt 0 = "0" /\ formatInt 3 = "3" /\ formatInt 120 = "120" /\ formatInt (-7) = "-7".
Proof. repeat split; reflexivity. Qed.

(** ** Stream errors of one step *)

Lemma drain_errclosed_noerrs task n lo rs o d :
  drain task n lo false rs = (o, d) -> errorsOf o = [].
Proof.
  revert lo o d. induction rs as [|r rs IH]; intros lo o d H; simpl in H.
  - destruct lo; simpl in H; injection H as <- _; reflexivity.
  - destruct lo; simpl in H; [|injection H as <- _; reflexivity].
    destruct r; try (eapply IH; exact H).
    + destruct (drain task n true false rs) as [o1 d1] eqn:E.
      injection H as <- _. simpl. eapply IH; exact E.
    + destruct (drain task n false false rs) as [o1 d1] eqn:E.
      injection H as <- _. simpl. eapply IH; exact E.
Qed.

(** When both sources of a step close, the step's messages on errC are the
    errors its error source delivered, in order, each prefixed with
    "failed to get logs for <step>: ". *)
Theorem drain_stream_errors task n rs o :
  drain task n true true rs = (o, true) ->
  errorsOf o = map (fun e => "failed to get logs for " +++ n +++ ": " +++ e) (errsBefore rs).
Proof.
  assert (Gen : forall lo, drain task n lo true rs = (o, true) ->
    errorsOf o = map (fun e => "failed to get logs for " +++ n +++ ": " +++ e) (errsBefore rs)).
  { revert o. induction rs as [|r rs IH]; intros o lo H; simpl in H.
    - destruct lo; discriminate.
    - destruct r as [l| |e|]; simpl.
      + destruct lo.
        * destruct (drain task n true true rs) as [o1 d1] eqn:E.
          injection H as <- ->. simpl. by apply (IH _ true).
        * by apply (IH _ false).
      + destruct lo.
        * destruct (drain task n false true rs) as [o1 d1] eqn:E.
          injection H as <- ->. simpl. by apply (IH _ false).
        * by apply (IH _ false).
      + destruct lo; simpl in H;
          destruct (drain task n _ true rs) as [o1 d1] eqn:E;
          injection H as <- ->; simpl; f_equal; by eapply IH.
      + destruct lo; simpl in H; by apply (drain_errclosed_noerrs _ _ _ _ _ _ H). }
  apply Gen.
Qed.

(** ** The step loop: opening, isolation of open failures, closing *)

Lemma drain_only_sends task n lo eo rs :
  Forall (fun e => match e with ELog _ | EErr _ => True | _ => False end)
    (fst (drain task n lo eo rs)).
Proof.
  revert lo eo. induction rs as [|r rs IH]; intros lo eo; simpl.
  - destruct lo, eo; constructor.
  - destruct lo, eo; simpl; try constructor;
      destruct r; simpl; try apply IH;
      match goal with
      | |- context [let '(_, _) := ?d in _] =>
          pose proof (IH_d := IH); destruct d as [o1 d1] eqn:E; simpl;
          constructor; [exact I|]
      | _ => idtac
      end;
      repeat match goal with
      | E : drain ?t ?n ?a ?b ?r = (?o, ?d) |- Forall _ ?o =>
          specialize (IH a b); rewrite E in IH; exact IH
      end.
Qed.

Lemma drain_no_open_close task n lo eo rs :
  opensOf (fst (drain task n lo eo rs)) = [] /\
  Forall (fun e => isClose e = false) (fst (drain task n lo eo rs)).
Proof.
  pose proof (drain_only_sends task n lo eo rs) as H.
  induction H as [|e l He Hl [IH1 IH2]]; [split; [reflexivity | constructor]|].
  destruct e; try contradiction; split; simpl; try done; by constructor.
Qed.

Lemma stepsLoop_no_close task follow env (steps : list step) :
  Forall (fun e => isClose e = false) (fst (stepsLoop task follow env steps)).
Proof.
  induction steps as [|s steps IH]; simpl; [constructor|].
  destruct (negb follow && negb (hasStarted s)); [exact IH|].
  destruct (env_readErr (env s)).
  - destruct (stepsLoop task follow env steps) as [o oc]. simpl in *.
    repeat constructor; done.
  - pose proof (proj2 (drain_no_open_close task (name s) true true (env_recv (env s)))) as Hd.
    destruct (drain task (name s) true true (env_recv (env s))) as [o d]. simpl in Hd.
    destruct d.
    + destruct (env_status (env s)).
      * simpl. constructor; [done|]. apply Forall_app. split; [done|]. by repeat constructor.
      * destruct (stepsLoop task follow env steps) as [o' oc]. simpl in *.
        constructor; [done|]. by apply Forall_app.
    + simpl. by constructor.
Qed.

(** readStepsLogs closes the channels only at its very end, errC first,
    each once; and when every step it opens either fails to open or has
    both of its sources closed, it does close them. *)
Theorem readStepsLogs_closes task follow env (steps : list step) :
  (exists o, Forall (fun e => isClose e = false) o /\
     (readStepsLogs task follow env steps = o \/
      readStepsLogs task follow env steps = o ++ [ECloseErr; ECloseLog])) /\
  ((forall s, In s steps ->
      env_readErr (env s) <> None \/ snd (drain task (name s) true true (env_recv (env s))) = true) ->
   exists o, Forall (fun e => isClose e = false) o /\
     readStepsLogs task follow env steps = o ++ [ECloseErr; ECloseLog]).
Proof.
  pose proof (stepsLoop_no_close task follow env steps) as Hnc.
  assert (Hnb : (forall s, In s steps ->
      env_readErr (env s) <> None \/ snd (drain task (name s) true true (env_recv (env s))) = true) ->
      snd (stepsLoop task follow env steps) <> Blocked).
  { clear Hnc. induction steps as [|s steps IH]; intros Hall; simpl; [discriminate|].
    destruct (negb follow && negb (hasStarted s)); [apply IH; intros; apply Hall; by right|].
    destruct (Hall s (or_introl eq_refl)) as [Hr|Hd].
    - destruct (env_readErr (env s)); [|done].
      destruct (stepsLoop task follow env steps) as [o oc] eqn:E. simpl.
      simpl in IH. apply IH. intros; apply Hall; by right.
    - destruct (env_readErr (env s)).
      + destruct (stepsLoop task follow env steps) as [o oc] eqn:E. simpl.
        simpl in IH. apply IH. intros; apply Hall; by right.
      + destruct (drain task (name s) true true (env_recv (env s))) as [o d].
        simpl in Hd. subst d. destruct (env_status (env s)); [discriminate|].
        destruct (stepsLoop task follow env steps) as [o' oc] eqn:E. simpl.
        simpl in IH. apply IH. intros; apply Hall; by right. }
  unfold readStepsLogs.
  destruct (stepsLoop task follow env steps) as [o oc]. simpl in *.
  split.
  - exists o. split; [done|]. destruct oc; [right|right|left]; reflexivity.
  - intros Hall. specialize (Hnb Hall). exists o. split; [done|].
    destruct oc; done.
Qed.

(** When a step's log reader fails to open, the loop sends one error for
    it and carries on with the next step as if started afresh. *)
Theorem readStepsLogs_open_failure_isolated task follow env (pre post : list step) s opre err :
  stepsLoop task follow env pre = (opre, Finished) ->
  (follow || hasStarted s)%bool = true ->
  env_readErr (env s) = Some err ->
  readStepsLogs task follow env (pre ++ s :: post) =
    opre ++ EOpen (container s)
         :: EErr ("error in getting logs for step " +++ name s +++ ": " +++ err)
         :: readStepsLogs task follow env post.
Proof.
  intros Hpre Hrun Hopen.
  assert (Hgo : (negb follow && negb (hasStarted s))%bool = false)
    by (destruct follow, (hasStarted s); simpl in *; congruence).
  unfold readStepsLogs. rewrite (stepsLoop_app_finished _ _ _ _ _ _ Hpre). simpl.
  rewrite Hgo, Hopen.
  destruct (stepsLoop task follow env post) as [o oc]. simpl.
  destruct oc; rewrite <- ?app_assoc; reflexivity.
Qed.

Lemma opensOf_app (a b : list eff) : opensOf (a ++ b) = opensOf a ++ opensOf b.
Proof. unfold opensOf. apply flat_map_app. Qed.

Lemma opensOf_cons_open c (l : list eff) : opensOf (EOpen c :: l) = c :: opensOf l.
Proof. reflexivity. Qed.

Lemma opensOf_cons_err m (l : list eff) : opensOf (EErr m :: l) = opensOf l.
Proof. reflexivity. Qed.

Local Arguments opensOf : simpl never.

(** The loop opens log readers one step at a time in the order of the
    steps, skipping (when not following) the steps that have not started,
    never twice; when it runs through all steps, it has opened every one
    of them. *)
Theorem readStepsLogs_opens_in_order task follow env (steps : list step) :
  opensOf (readStepsLogs task follow env steps) `prefix_of`
    map container (filter (fun s => (follow || hasStarted s)%bool = true) steps) /\
  (snd (stepsLoop task follow env steps) = Finished ->
   opensOf (readStepsLogs task follow env steps) =
     map container (filter (fun s => (follow || hasStarted s)%bool = true) steps)).
Proof.
  assert (Hcl : forall o, opensOf (o ++ [ECloseErr; ECloseLog]) = opensOf o)
    by (intros o; unfold opensOf; rewrite flat_map_app; simpl; by rewrite app_nil_r).
  assert (Hloop : opensOf (fst (stepsLoop task follow env steps)) `prefix_of`
      map container (filter (fun s => (follow || hasStarted s)%bool = true) steps) /\
    (snd (stepsLoop task follow env steps) = Finished ->
     opensOf (fst (stepsLoop task follow env steps)) =
       map container (filter (fun s => (follow || hasStarted s)%bool = true) steps))).
  { induction steps as [|s steps [IH1 IH2]]; simpl; [split; [reflexivity|done]|].
    rewrite filter_cons.
    destruct (decide ((follow || hasStarted s)%bool = true)) as [Hr|Hr].
    - replace (negb follow && negb (hasStarted s))%bool with false
        by (destruct follow, (hasStarted s); simpl in *; congruence).
      simpl. destruct (env_readErr (env s)).
      + destruct (stepsLoop task follow env steps) as [o oc]. simpl in *.
        rewrite opensOf_cons_open, opensOf_cons_err.
        split; [by apply prefix_cons|]. intros ->. by rewrite IH2.
      + pose proof (proj1 (drain_no_open_close task (name s) true true (env_recv (env s)))) as Hd.
        destruct (drain task (name s) true true (env_recv (env s))) as [od d]. simpl in Hd.
        destruct d.
        * destruct (env_status (env s)).
          -- simpl. rewrite opensOf_cons_open, !opensOf_app, Hd. simpl.
             split; [apply prefix_cons, prefix_nil | discriminate].
          -- destruct (stepsLoop task follow env steps) as [o' oc]. simpl in *.
             rewrite opensOf_cons_open, opensOf_app, Hd.
             split; [by apply prefix_cons|]. intros ->. by rewrite IH2.
        * simpl. rewrite opensOf_cons_open, Hd.
          split; [apply prefix_cons, prefix_nil | discriminate].
    - replace (negb follow && negb (hasStarted s))%bool with true
        by (destruct follow, (hasStarted s); simpl in *; congruence).
      split; assumption. }
  unfold readStepsLogs. destruct (stepsLoop task follow env steps) as [o oc]. simpl in *.
  destruct Hloop as [H1 H2].
  destruct oc; rewrite ?Hcl; split; auto.
Qed.

(** ** The waiter and the failure check *)

(** Every run the waiter returns has a non-empty pod name. *)
Theorem waitUntilPodNameAvailable_run_has_pod task get watchErr sels (r : TaskRun) :
  waitUntilPodNameAvailable task get watchErr sels = WaitRun r -> tr_podName r <> "".
Proof.
  unfold waitUntilPodNameAvailable. destruct get as [run|err]; [|discriminate].
  destruct (String.eqb_spec (tr_podName run) "") as [He|Hne]; simpl.
  - destruct watchErr; [discriminate|].
    induction sels as [|x sels IH]; simpl; [discriminate|].
    destruct x as [r'|].
    + destruct (String.eqb_spec (tr_podName r') ""); simpl; [exact IH|].
      intros [= <-]. assumption.
    + destruct (hasTaskRunFailed (tr_conditions run) task); discriminate.
  - intros [= <-]. assumption.
Qed.

(** Before any timeout, the waiter returns the first watched run that
    carries a pod name, whatever comes after it; a Get or Watch failure is
    returned as it is. *)
Theorem waitUntilPodNameAvailable_first_event task (run : TaskRun) evs r rest :
  tr_podName run = "" ->
  Forall (fun x => exists r0, x = SelEvent r0 /\ tr_podName r0 = "") evs ->
  tr_podName r <> "" ->
  waitUntilPodNameAvailable task (inl run) None (evs ++ SelEvent r :: rest) = WaitRun r /\
  (forall err, waitUntilPodNameAvailable task (inr err) None (evs ++ SelEvent r :: rest) = WaitErr err) /\
  (forall err, waitUntilPodNameAvailable task (inl run) (Some err) (evs ++ SelEvent r :: rest)
                 = WaitErr err).
Proof.
  intros Hrun Hevs Hr. unfold waitUntilPodNameAvailable. rewrite Hrun. simpl.
  split; [|split; reflexivity].
  induction Hevs as [|x evs [r0 [-> Hr0]] _ IH]; simpl.
  - destruct (String.eqb_spec (tr_podName r) ""); [contradiction | reflexivity].
  - rewrite Hr0. exact IH.
Qed.

(** ** readAvailableLogs and readLiveLogs *)

(** readAvailableLogs writes to lr.Stream.Err only when the run has
    started and its first condition is failed, then one line with the
    error it returns; when the pod is fetched it returns the goroutine of
    readStepsLogs over filterSteps, and a fetch error is returned wrapped. *)
Theorem readAvailableLogs_outcomes (lr : LogReader) getPod env (tr : TaskRun) :
  (forall w res, readAvailableLogs lr getPod env tr = (w, res) -> w <> [] ->
     exists err, tr_hasStarted tr = true /\
       hasTaskRunFailed (tr_conditions tr) (lr_Task lr) = Some err /\
       lr_Stream lr = true /\ w = [err +++ String (Ascii.ascii_of_nat 10) ""] /\ res = ReadErr err) /\
  (tr_hasStarted tr = true -> hasTaskRunFailed (tr_conditions tr) (lr_Task lr) = None ->
   tr_podName tr <> "" ->
   (forall pod, getPod (tr_podName tr) = inl pod ->
      readAvailableLogs lr getPod env tr =
        ([], ReadChans (readStepsLogs (lr_Task lr) (lr_Follow lr) env
                          (filterSteps pod (lr_AllSteps lr) (lr_Steps lr))))) /\
   (forall err, getPod (tr_podName tr) = inr err ->
      readAvailableLogs lr getPod env tr =
        ([], ReadErr ("task " +++ lr_Task lr +++ " failed: " +++ TrimSpace err
                      +++ ". Run tkn tr desc " +++ tr_name tr +++ " for more details.")))).
Proof.
  unfold readAvailableLogs. split.
  - intros w res H Hw.
    destruct (tr_hasStarted tr) eqn:Hs; simpl in H; [|injection H as <- _; done].
    destruct (hasTaskRunFailed (tr_conditions tr) (lr_Task lr)) as [err|] eqn:Hf.
    + exists err. destruct (lr_Stream lr) eqn:Hst; injection H as <- <-; [|done].
      repeat split; reflexivity.
    + destruct (String.eqb (tr_podName tr) ""); [injection H as <- _; done|].
      destruct (getPod (tr_podName tr)); injection H as <- _; done.
  - intros Hs Hf Hp. rewrite Hs, Hf. simpl.
    destruct (String.eqb_spec (tr_podName tr) ""); [contradiction|].
    split; intros x Hx; by rewrite Hx.
Qed.

(** readLiveLogs never checks the conditions of the run the waiter
    obtains: whether that run comes from the initial Get with a pod name,
    or is the first run with a pod name delivered by the watch after runs
    without one, once its pod is ready the step logs of the pod are
    streamed, even when the run's first condition is failed. *)
Theorem readLiveLogs_streams_obtained_run (lr : LogReader) (run r : TaskRun) evs rest
    watchErr sels podWait env pod :
  (tr_podName run <> "" -> podWait (tr_podName run) = inl pod ->
   readLiveLogs lr (inl run) watchErr sels podWait env =
     Some (ReadChans (readStepsLogs (lr_Task lr) (lr_Follow lr) env
                        (filterSteps pod (lr_AllSteps lr) (lr_Steps lr))))) /\
  (tr_podName run = "" ->
   Forall (fun x => exists r0, x = SelEvent r0 /\ tr_podName r0 = "") evs ->
   tr_podName r <> "" -> podWait (tr_podName r) = inl pod ->
   readLiveLogs lr (inl run) None (evs ++ SelEvent r :: rest) podWait env =
     Some (ReadChans (readStepsLogs (lr_Task lr) (lr_Follow lr) env
                        (filterSteps pod (lr_AllSteps lr) (lr_Steps lr))))).
Proof.
  unfold readLiveLogs, waitUntilPodNameAvailable. split.
  - intros Hp Hpod.
    destruct (String.eqb_spec (tr_podName run) ""); [contradiction|]. simpl.
    by rewrite Hpod.
  - intros Hrun Hevs Hr Hpod. rewrite Hrun. simpl.
    induction Hevs as [|x evs [r0 [-> Hr0]] _ IH]; simpl.
    + destruct (String.eqb_spec (tr_podName r) ""); [contradiction|]. simpl.
      by rewrite Hpod.
    + rewrite Hr0. exact IH.
Qed.

(** ** Step names and the resolver *)

Lemma substring_all (x : string) : String.substring 0 (String.length x) x = x.
Proof. induction x as [|c x IH]; simpl; [done|]. by rewrite IH. Qed.

Lemma prefix_append (p x : string) : String.prefix p (p +++ x) = true.
Proof.
  induction p as [|c p IH]; simpl; [by destruct x|].
  destruct (Ascii.ascii_dec c c); [exact IH | contradiction].
Qed.

Lemma substring_append (p x : string) :
  String.substring (String.length p) (String.length x) (p +++ x) = x.
Proof. induction p as [|c p IH]; simpl; [apply substring_all | exact IH]. Qed.

Lemma length_append (p x : string) :
  String.length (p +++ x) = String.length p + String.length x.
Proof. induction p as [|c p IH]; simpl; [done | by rewrite IH]. Qed.

(** TrimPrefix removes one leading occurrence of the prefix and leaves
    other strings alone; so a container named step-x and one named x (x
    not starting with step-) both give the step name x. *)
Theorem TrimPrefix_step (x : string) :
  TrimPrefix ("step-" +++ x) "step-" = x /\
  (String.prefix "step-" x = false -> TrimPrefix x "step-" = x) /\
  (String.prefix "step-" x = false ->
     TrimPrefix ("step-" +++ x) "step-" = TrimPrefix x "step-").
Proof.
  assert (H1 : TrimPrefix ("step-" +++ x) "step-" = x).
  { unfold TrimPrefix. rewrite prefix_append, length_append.
    replace (String.length "step-" + String.length x - String.length "step-")
      with (String.length x) by lia.
    apply substring_append. }
  split; [exact H1|].
  assert (H2 : String.prefix "step-" x = false -> TrimPrefix x "step-" = x)
    by (intros H; unfold TrimPrefix; by rewrite H).
  split; [exact H2|]. intros H. by rewrite H1, H2.
Qed.

(** filterSteps only picks steps of the pod: its result is an
    order-preserving sub-list of the init steps followed by the steps,
    with no step repeated or invented. *)
Theorem filterSteps_sublist (pod : Pod) (allSteps : bool) (wanted : list string) :
  filterSteps pod allSteps wanted `sublist_of` getInitSteps pod ++ getSteps pod.
Proof.
  unfold filterSteps.
  assert (Hi : (if allSteps then getInitSteps pod else []) `sublist_of` getInitSteps pod)
    by (destruct allSteps; [reflexivity | apply sublist_nil_l]).
  destruct wanted as [|w ws].
  - by apply sublist_app.
  - apply sublist_app; [exact Hi|]. apply sublist_filter.
Qed.

(** ** formTaskName *)

(** formTaskName keeps a task name given explicitly; otherwise it takes the
    pipelineTask label when present (even with an empty value), else the
    TaskRef's name, else "Task <Number>"; applying it a second time changes
    nothing. *)
Theorem formTaskName_priority_idempotent task number (tr : TaskRunMeta) :
  (task <> "" -> formTaskName task number tr = task) /\
  (forall v, trm_labels tr !! "tekton.dev/pipelineTask" = Some v ->
     formTaskName "" number tr = v) /\
  (forall r, trm_labels tr !! "tekton.dev/pipelineTask" = None -> trm_taskRef tr = Some r ->
     formTaskName "" number tr = ref_name r) /\
  (trm_labels tr !! "tekton.dev/pipelineTask" = None -> trm_taskRef tr = None ->
     formTaskName "" number tr = "Task " +++ formatInt number) /\
  formTaskName (formTaskName task number tr) number tr = formTaskName task number tr.
Proof.
  unfold formTaskName. split; [|split; [|split; [|split]]].
  - intros H. destruct (String.eqb_spec task ""); [contradiction | reflexivity].
  - intros v Hv. simpl. by rewrite Hv.
  - intros r Hl Hr. simpl. by rewrite Hl, Hr.
  - intros Hl Hr. simpl. by rewrite Hl, Hr.
  - destruct (String.eqb_spec task "") as [->|Hne]; simpl.
    + destruct (trm_labels tr !! "tekton.dev/pipelineTask") as [v|] eqn:Hl.
      * destruct (String.eqb_spec v "") as [->|]; simpl; rewrite ?Hl; reflexivity.
      * destruct (trm_taskRef tr) as [r|] eqn:Hr.
        -- destruct (String.eqb_spec (ref_name r) "") as [He|]; simpl;
             rewrite ?Hl, ?Hr; reflexivity.
        -- by destruct (String.eqb_spec ("Task " +++ formatInt number) "").
    + destruct (String.eqb_spec task ""); [contradiction | reflexivity].
Qed.

(** ** sortResourcesByTypeAndName *)

Lemma goLess_asym a b : goLess a b = true -> goLess b a = false.
Proof.
  unfold goLess, String.ltb. rewrite (String.compare_antisym b a).
  destruct (String.compare a b); simpl; done.
Qed.

Lemma goLess_irrefl a : goLess a a = false.
Proof. destruct (goLess a a) eqn:E; [|done]. by rewrite (goLess_asym _ _ E) in E. Qed.

Lemma goLess_neither a b : goLess a b = false -> goLess b a = false -> a = b.
Proof.
  unfold goLess, String.ltb. rewrite (String.compare_antisym b a).
  destruct (String.compare a b) eqn:E; simpl; try done.
  intros _ _. by apply String.compare_eq_iff.
Qed.

Lemma lessResource_spec a b :
  lessResource a b = true <->
  goLess (pr_type a) (pr_type b) = true \/
  (pr_type a = pr_type b /\ goLess (pr_name a) (pr_name b) = true).
Proof.
  unfold lessResource.
  destruct (goLess (pr_type b) (pr_type a)) eqn:Hba.
  - split; [discriminate|]. intros [H|[H _]].
    + by rewrite (goLess_asym _ _ H) in Hba.
    + rewrite H in Hba. by rewrite goLess_irrefl in Hba.
  - destruct (goLess (pr_type a) (pr_type b)) eqn:Hab; [tauto|].
    pose proof (goLess_neither _ _ Hab Hba) as Heq. split; [tauto|]. intros [H1|[_ H1]]; congruence.
Qed.

Lemma lessResource_both_false a b :
  lessResource a b = false -> lessResource b a = false -> resourceKey a = resourceKey b.
Proof.
  unfold lessResource, resourceKey.
  destruct (goLess (pr_type b) (pr_type a)) eqn:Hba,
           (goLess (pr_type a) (pr_type b)) eqn:Hab; simpl; try done.
  - by rewrite (goLess_asym _ _ Hab) in Hba.
  - intros Hn1 Hn2. f_equal; by apply goLess_neither.
Qed.

(** The less function of sortResourcesByTypeAndName orders resources by
    Type, then by Name (byte-wise string order); although sort.Slice is not
    stable, every result it may give lists the (Type, Name) pairs in the
    same order. *)
Theorem sortResourcesByTypeAndName_order (pres out1 out2 : list PipelineDeclaredResource) :
  (forall a b, lessResource a b = true <->
     goLess (pr_type a) (pr_type b) = true \/
     (pr_type a = pr_type b /\ goLess (pr_name a) (pr_name b) = true)) /\
  (sortResourcesByTypeAndName pres out1 -> sortResourcesByTypeAndName pres out2 ->
   map resourceKey out1 = map resourceKey out2).
Proof.
  split; [apply lessResource_spec|].
  intros [P1 S1] [P2 S2].
  set (R := fun k1 k2 : string * string =>
              exists a b, k1 = resourceKey a /\ k2 = resourceKey b /\ lessResource b a = false).
  assert (Hmap : forall out, StronglySorted (fun a b => lessResource b a = false) out ->
                 StronglySorted R (map resourceKey out)).
  { intros out S. induction S as [|x l _ IH Hx]; simpl; constructor; [exact IH|].
    apply Forall_map. eapply Forall_impl; [exact Hx|]. intros y Hy. by exists x, y. }
  apply (StronglySorted_unique_strong R); [| apply Hmap, S1 | apply Hmap, S2 |].
  - intros k1 k2 _ _ [a [b [-> [-> Hba]]]] [b' [a' [Hb [Ha Hab]]]].
    (* keys determine lessResource *)
    assert (Hk : forall x y x' y', resourceKey x = resourceKey x' -> resourceKey y = resourceKey y' ->
                   lessResource x y = lessResource x' y').
    { intros x y x' y' Hx Hy. unfold resourceKey in *. unfold lessResource.
      injection Hx as -> ->. injection Hy as -> ->. reflexivity. }
    apply lessResource_both_false; [| exact Hba].
    rewrite (Hk a b a' b'); [exact Hab | exact Ha | exact Hb].
  - apply Permutation_map. by rewrite <- P1, P2.
Qed.

(* ------------------------------------------------------------------ *)
(** ** The further theorems at concrete inputs *)

Lemma drain_stream_errors_witness :
  drain "t" "build" true true (env_recv (abortEnv buildStep))
    = ([ELog {| Task := "t"; Step := "build"; LogText := "ok" |};
        EErr "failed to get logs for build: x";
        ELog {| Task := "t"; Step := "build"; LogText := "EOFLOG" |}], true) /\
  errorsOf [ELog {| Task := "t"; Step := "build"; LogText := "ok" |};
            EErr "failed to get logs for build: x";
            ELog {| Task := "t"; Step := "build"; LogText := "EOFLOG" |}] =
    map (fun e => "failed to get logs for " +++ "build" +++ ": " +++ e)
        (errsBefore (env_recv (abortEnv buildStep))).
Proof.
  split; [reflexivity|]. apply (drain_stream_errors "t" "build"). reflexivity.
Defined.

Lemma readStepsLogs_closes_witness :
  (forall s, In s [buildStep; testStep] ->
     env_readErr (abortEnv s) <> None \/
     snd (drain "t" (name s) true true (env_recv (abortEnv s))) = true) /\
  exists o, Forall (fun e => isClose e = false) o /\
    readStepsLogs "t" true abortEnv [buildStep; testStep] = o ++ [ECloseErr; ECloseLog].
Proof.
  assert (H : forall s, In s [buildStep; testStep] ->
     env_readErr (abortEnv s) <> None \/
     snd (drain "t" (name s) true true (env_recv (abortEnv s))) = true).
  { intros s [<-|[<-|[]]]; right; reflexivity. }
  split; [exact H|]. exact (proj2 (readStepsLogs_closes "t" true abortEnv _) H).
Defined.

Lemma readStepsLogs_open_failure_isolated_witness :
  readStepsLogs "t" false openFailEnv ([] ++ buildStep :: [testStep]) =
    [] ++ EOpen "step-build"
       :: EErr ("error in getting logs for step " +++ "build" +++ ": " +++ "container not found")
       :: readStepsLogs "t" false openFailEnv [testStep].
Proof.
  apply (readStepsLogs_open_failure_isolated "t" false openFailEnv [] [testStep] buildStep []);
    reflexivity.
Defined.

Lemma readStepsLogs_opens_in_order_witness :
  snd (stepsLoop "t" false openFailEnv [buildStep; waitingStep; testStep]) = Finished /\
  opensOf (readStepsLogs "t" false openFailEnv [buildStep; waitingStep; testStep]) =
    map container (filter (fun s => (false || hasStarted s)%bool = true)
                     [buildStep; waitingStep; testStep]).
Proof.
  split; [reflexivity|].
  exact (proj2 (readStepsLogs_opens_in_order "t" false openFailEnv
                 [buildStep; waitingStep; testStep]) eq_refl).
Defined.

Lemma waitUntilPodNameAvailable_run_has_pod_witness :
  waitUntilPodNameAvailable "t" (inl pendingRun) None [SelEvent pendingRun; SelEvent scheduledRun]
    = WaitRun scheduledRun /\ tr_podName scheduledRun <> "".
Proof.
  assert (H : waitUntilPodNameAvailable "t" (inl pendingRun) None
                [SelEvent pendingRun; SelEvent scheduledRun] = WaitRun scheduledRun)
    by reflexivity.
  split; [exact H | exact (waitUntilPodNameAvailable_run_has_pod _ _ _ _ _ H)].
Defined.

Lemma waitUntilPodNameAvailable_first_event_witness :
  waitUntilPodNameAvailable "t" (inl pendingRun) None
    ([SelEvent failedRun] ++ SelEvent scheduledRun :: [SelTimeout]) = WaitRun scheduledRun.
Proof.
  refine (proj1 (waitUntilPodNameAvailable_first_event "t" pendingRun _ scheduledRun _
                   eq_refl _ _)).
  - repeat constructor. exists failedRun. split; reflexivity.
  - discriminate.
Defined.

Lemma readAvailableLogs_outcomes_witness :
  tr_hasStarted scheduledRun = true /\
  hasTaskRunFailed (tr_conditions scheduledRun) "t" = None /\
  tr_podName scheduledRun <> "" /\
  readAvailableLogs plainReader (fun _ => inl examplePod) abortEnv scheduledRun =
    ([], ReadChans (readStepsLogs "t" false abortEnv (filterSteps examplePod false []))).
Proof.
  assert (Hp : tr_podName scheduledRun <> "") by discriminate.
  split; [reflexivity|]. split; [reflexivity|]. split; [exact Hp|].
  exact (proj1 (proj2 (readAvailableLogs_outcomes plainReader (fun _ => inl examplePod)
                         abortEnv scheduledRun) eq_refl eq_refl Hp) examplePod eq_refl).
Defined.

Lemma readLiveLogs_streams_obtained_run_witness :
  readLiveLogs plainReader (inl failedScheduledRun) None [] (fun _ => inl examplePod) abortEnv =
    Some (ReadChans (readStepsLogs "t" false abortEnv (filterSteps examplePod false []))) /\
  readLiveLogs plainReader (inl pendingRun) None
    ([SelEvent failedRun] ++ SelEvent failedScheduledRun :: [SelTimeout])
    (fun _ => inl examplePod) abortEnv =
    Some (ReadChans (readStepsLogs "t" false abortEnv (filterSteps examplePod false []))).
Proof.
  split.
  - refine (proj1 (readLiveLogs_streams_obtained_run plainReader failedScheduledRun
                     failedScheduledRun [] [] None [] (fun _ => inl examplePod) abortEnv
                     examplePod) _ eq_refl).
    discriminate.
  - refine (proj2 (readLiveLogs_streams_obtained_run plainReader pendingRun
                     failedScheduledRun [SelEvent failedRun] [SelTimeout] None []
                     (fun _ => inl examplePod) abortEnv examplePod) eq_refl _ _ eq_refl).
    + repeat constructor. exists failedRun. split; reflexivity.
    + discriminate.
Defined.

Lemma TrimPrefix_step_witness :
  String.prefix "step-" "build" = false /\
  TrimPrefix ("step-" +++ "build") "step-" = TrimPrefix "build" "step-".
Proof.
  split; [reflexivity|]. exact (proj2 (proj2 (TrimPrefix_step "build")) eq_refl).
Defined.

Lemma formTaskName_priority_idempotent_witness :
  formTaskName "" 2 {| trm_labels := ∅; trm_taskRef := None |} = "Task 2".
Proof.
  exact (proj1 (proj2 (proj2 (proj2
           (formTaskName_priority_idempotent "" 2 {| trm_labels := ∅; trm_taskRef := None |}))))
           eq_refl eq_refl).
Defined.

Lemma sortResourcesByTypeAndName_order_witness :
  sortResourcesByTypeAndName [imageResource; gitResource] [gitResource; imageResource] /\
  map resourceKey [gitResource; imageResource] = map resourceKey [gitResource; imageResource].
Proof.
  assert (H : sortResourcesByTypeAndName [imageResource; gitResource] [gitResource; imageResource]).
  { split; [apply perm_swap|]. repeat constructor. }
  split; [exact H|].
  exact (proj2 (sortResourcesByTypeAndName_order _ _ _) H H).
Defined.
